(** * libdeploy's configuration tree (zhash.go), embedded in Rocq

    A [Config] is a Go [map[string]interface{}].  Go maps are reference
    values: a map stored under a key is a pointer to a mutable hash table,
    which other keys (or the map itself) may share.  The tree is therefore
    modelled as a heap of tables indexed by locations, and a map value as a
    possibly nil location.  Writing to a nil map panics; the writing
    functions return [None] for a panic. *)

From Stdlib Require Import ZArith.
From Stdlib Require Import PrimFloat Uint63.
From stdpp Require Import base gmap strings list sorting.
From Stdlib Require Ascii.
Import Ascii.AsciiSyntax.

(** ** Values *)

Definition loc := positive.

(** A map reference; [None] is a nil map. *)
Definition mref := option loc.

Local Set Warnings "-register-all".

(** The dynamic values an [interface{}] of the tree can hold. *)
Inductive val : Type :=
| VNil                          (* the nil interface *)
| VString (s : string)
| VBool (b : bool)
| VInt (z : Z)                  (* int *)
| VInt64 (z : Z)                (* int64 *)
| VFloat (f : float)            (* float64 *)
| VMap (m : mref)               (* map[string]interface{} *)
| VConfig (m : mref)            (* the named map type Config *)
| VSlice (xs : list val)        (* []interface{} *)
| VOther (tyname : string).     (* any other dynamic type *)

Abbreviation table := (gmap string val).
Abbreviation heap := (gmap loc table).

(** const REQUIRED = "[REQUIRED]" *)
Definition REQUIRED : string := "[REQUIRED]".

(** ** Go map primitives *)

(** The table a map reference points to; a nil map reads as empty. *)
Definition table_of (h : heap) (r : mref) : table :=
  match r with
  | Some l => default ∅ (h !! l)
  | None => ∅
  end.

(** [ptr[k]]: a missing key (or a nil map) reads as nil. *)
Definition mread (h : heap) (r : mref) (k : string) : val :=
  default VNil (table_of h r !! k).

(** [ptr[k] = v]: assignment to an entry of a nil map panics. *)
Definition mwrite (h : heap) (r : mref) (k : string) (v : val) : option heap :=
  match r with
  | Some l => Some (<[l := <[k := v]> (table_of h (Some l))]> h)
  | None => None
  end.

(** [map[string]interface{}{}]: a freshly allocated empty table. *)
Definition new_map (h : heap) : heap * loc :=
  let l := fresh (dom h) in (<[l := ∅]> h, l).

(** ** Config.Set *)

(** One middle element of the loop of [Set]:
<<
    switch node := ptr[p].(type) {
    case map[string]interface{}: ptr = node
    case Config:                 ptr = map[string]interface{}(node)
    default:
        ptr[p] = map[string]interface{}{}
        ptr = ptr[p].(map[string]interface{})
    }
>>
    In the default case [ptr[p]] has just been set to the new map, so the
    type assertion yields it. *)
Definition set_step (h : heap) (ptr : mref) (p : string) : option (heap * mref) :=
  match mread h ptr p with
  | VMap node => Some (h, node)
  | VConfig node => Some (h, node)
  | _ =>
      let '(h1, l) := new_map h in
      match mwrite h1 ptr p (VMap (Some l)) with
      | Some h2 => Some (h2, Some l)
      | None => None
      end
  end.

(** [for i, p := range path { if i < len(path)-1 { ... }; key = p }] *)
Fixpoint set_loop (h : heap) (ptr : mref) (key : string) (path : list string)
  : option (heap * mref * string) :=
  match path with
  | [] => Some (h, ptr, key)
  | p :: rest =>
      let step := match rest with
                  | [] => Some (h, ptr)
                  | _ :: _ => set_step h ptr p
                  end in
      match step with
      | Some (h', ptr') => set_loop h' ptr' p rest
      | None => None
      end
  end.

(** [func (c Config) Set(value interface{}, path ...string)]:
    [key := ""; ptr := c; loop; ptr[key] = value]. *)
Definition Set_ (h : heap) (c : mref) (value : val) (path : list string) : option heap :=
  match set_loop h c "" path with
  | Some (h', ptr, key) => mwrite h' ptr key value
  | None => None
  end.

(** ** Config.GetPath *)

(** The loop of [GetPath]: the last element returns [ptr[p]]; a middle
    element descends only into a [map[string]interface{}]. *)
Fixpoint get_loop (h : heap) (ptr : mref) (path : list string) : val :=
  match path with
  | [] => VNil
  | [p] => mread h ptr p
  | p :: rest =>
      match mread h ptr p with
      | VMap node => get_loop h node rest
      | _ => VNil
      end
  end.

Definition GetPath (h : heap) (c : mref) (path : list string) : val :=
  get_loop h c path.

(** ** Errors *)

(** The error values of the file: [NotFoundError{Path}], the
    [*errorString] of [errors.New(msg)], and [RequiredError{Path}]. *)
Inductive goerror : Type :=
| NotFoundError (path : list string)
| ErrorString (msg : string)
| RequiredError (path : string).

(** [strings.Join(path, ".")] *)
Definition join (path : list string) : string := String.concat "." path.

(** [errors.New(fmt.Sprintf("Error converting %s to <kind>",
    strings.Join(path, ".")))] *)
Definition conversion_error (path : list string) (kind : string) : goerror :=
  ErrorString ("Error converting " +:+ join path +:+ " to " +:+ kind).

(** ** Typed getters *)

(** [GetMap]: both error returns allocate a fresh empty map. *)
Definition GetMap (h : heap) (c : mref) (path : list string)
  : heap * (mref * option goerror) :=
  match GetPath h c path with
  | VNil => let '(h', l) := new_map h in (h', (Some l, Some (NotFoundError path)))
  | VMap m => (h, (m, None))
  | _ => let '(h', l) := new_map h in (h', (Some l, Some (conversion_error path "map")))
  end.

Definition GetString (h : heap) (c : mref) (path : list string) : string * option goerror :=
  match GetPath h c path with
  | VNil => ("", Some (NotFoundError path))
  | VString s => (s, None)
  | _ => ("", Some (conversion_error path "string"))
  end.

Definition GetSlice (h : heap) (c : mref) (path : list string) : list val * option goerror :=
  match GetPath h c path with
  | VNil => ([], Some (NotFoundError path))
  | VSlice xs => (xs, None)
  | _ => ([], Some (conversion_error path "slice"))
  end.

(** The loop of [GetStringSlice]: [sl = append(sl, s)] for a string
    element, an early return on the first element that is not one. *)
Fixpoint string_elems (xs : list val) (sl : list string) : option (list string) :=
  match xs with
  | [] => Some sl
  | VString s :: rest => string_elems rest (sl ++ [s])
  | _ :: _ => None
  end.

Definition GetStringSlice (h : heap) (c : mref) (path : list string)
  : list string * option goerror :=
  match GetPath h c path with
  | VNil => ([], Some (NotFoundError path))
  | VSlice xs =>
      match string_elems xs [] with
      | Some sl => (sl, None)
      | None => ([], Some (conversion_error path "string slice"))
      end
  | _ => ([], Some (conversion_error path "slice"))
  end.

Definition GetBool (h : heap) (c : mref) (path : list string) : bool * option goerror :=
  match GetPath h c path with
  | VNil => (false, Some (NotFoundError path))
  | VBool b => (b, None)
  | _ => (false, Some (conversion_error path "bool"))
  end.

(** [int64(val)] of an [int] keeps its value. *)
Definition GetInt (h : heap) (c : mref) (path : list string) : Z * option goerror :=
  match GetPath h c path with
  | VNil => (0%Z, Some (NotFoundError path))
  | VInt z => (z, None)
  | VInt64 z => (z, None)
  | _ => (0%Z, Some (conversion_error path "int"))
  end.

(** [float64(z)] for a 64-bit integer [z]: rounded to nearest, ties to even
    (the rounding of [of_uint63]); negation is exact, and [-2^63] is
    [-(2 * 2^62)]. *)
Definition float64_of_int64 (z : Z) : float :=
  if (0 <=? z)%Z then of_uint63 (Uint63.of_Z z)
  else if (z =? - 2 ^ 63)%Z then PrimFloat.opp (PrimFloat.mul two (of_uint63 (Uint63.of_Z (2 ^ 62))))
  else PrimFloat.opp (of_uint63 (Uint63.of_Z (- z))).

Definition GetFloat (h : heap) (c : mref) (path : list string) : float * option goerror :=
  match GetPath h c path with
  | VNil => (zero, Some (NotFoundError path))
  | VFloat f => (f, None)
  | VInt z => (float64_of_int64 z, None)
  | VInt64 z => (float64_of_int64 z, None)
  | _ => (zero, Some (conversion_error path "float"))
  end.

(** ** Config.Validate *)

(** The work list of [Validate] holds pairs [(node, path)]; its top is the
    last element.  A step pops the top; a map pushes its entries in the
    order [range] visits them, which Go leaves unspecified: any permutation
    of the table's entries. *)
Inductive validate_run (h : heap) : list (val * string) -> list goerror -> list goerror -> Prop :=
| VR_done errs :
    validate_run h [] errs errs
| VR_map nodes m path kvs errs out :
    kvs ≡ₚ map_to_list (table_of h m) ->
    validate_run h (nodes ++ map (fun '(k, n) => (n, path +:+ "." +:+ k)) kvs) errs out ->
    validate_run h (nodes ++ [(VMap m, path)]) errs out
| VR_string nodes s path errs out :
    validate_run h nodes
      (if String.eqb s REQUIRED then errs ++ [RequiredError path] else errs) out ->
    validate_run h (nodes ++ [(VString s, path)]) errs out
| VR_other nodes v path errs out :
    (forall m, v <> VMap m) -> (forall s, v <> VString s) ->
    validate_run h nodes errs out ->
    validate_run h (nodes ++ [(v, path)]) errs out.

(** [Validate] returns [errs] when some run from the initial work list
    (the root's entries, in [range] order) ends with [errs]. *)
Definition Validate (h : heap) (c : mref) (errs : list goerror) : Prop :=
  exists kvs, kvs ≡ₚ map_to_list (table_of h c) /\
    validate_run h (map (fun '(p, v) => (v, p)) kvs) [] errs.

(** ** Helpers on the Set walk *)

(** The node [Set] descends into at a middle element, if any. *)
Definition descends (v : val) : option mref :=
  match v with
  | VMap m => Some m
  | VConfig m => Some m
  | _ => None
  end.

(** The map a walk that descends as [Set] does along [q] ends in. *)
Fixpoint descend_path (h : heap) (ptr : mref) (q : list string) : option mref :=
  match q with
  | [] => Some ptr
  | p :: q' =>
      match descends (mread h ptr p) with
      | Some m => descend_path h m q'
      | None => None
      end
  end.

(** ** Well-formedness of a heap *)

(** Every map stored in a table is allocated: Go has no dangling map. *)
Definition closed (h : heap) : Prop :=
  forall l t k l', h !! l = Some t -> t !! k = Some (VMap (Some l')) -> l' ∈ dom h.

(** The maps form no cycle: a rank that decreases from a table to every
    map stored in it. *)
Definition acyclic (h : heap) (rank : loc -> nat) : Prop :=
  forall l t k l', h !! l = Some t -> t !! k = Some (VMap (Some l')) -> rank l' < rank l.

(** No value of the named type [Config] is stored inside the tree. *)
Definition no_config (h : heap) : Prop :=
  forall l t k m, h !! l = Some t -> t !! k <> Some (VConfig m).

(** ** Spec-side definitions *)

(** What [Validate] is to find, read off the spec: the nodes reachable
    from a node through maps only, each with its dotted path (pre-order,
    at most [fuel] levels deep). *)
Fixpoint reachable (fuel : nat) (h : heap) (v : val) (path : string) : list (val * string) :=
  match fuel with
  | 0 => []
  | S f =>
      (v, path) ::
      match v with
      | VMap m => flat_map (fun kn => reachable f h kn.2 (path +:+ "." +:+ kn.1))
                    (map_to_list (table_of h m))
      | _ => []
      end
  end.

(** One [RequiredError] per node that is the string [REQUIRED]. *)
Definition required_of (nodes : list (val * string)) : list goerror :=
  flat_map (fun vp => match vp.1 with
                      | VString s => if String.eqb s REQUIRED then [RequiredError vp.2] else []
                      | _ => []
                      end) nodes.

(** The errors expected from [Validate]: one per [REQUIRED] string
    reachable from a root entry through maps. *)
Definition required_fields (fuel : nat) (h : heap) (c : mref) : list goerror :=
  required_of (flat_map (fun kv => reachable fuel h kv.2 kv.1) (map_to_list (table_of h c))).

(** Enough fuel to reach every node below [v], for a map rank [rank]. *)
Definition fuel_for (rank : loc -> nat) (v : val) (f : nat) : Prop :=
  match v with
  | VMap (Some l) => S (rank l) < f
  | _ => 0 < f
  end.

(** The nodes still to be visited from a work list. *)
Definition work (fuel : nat) (h : heap) (stack : list (val * string)) : list (val * string) :=
  flat_map (fun x => reachable fuel h x.1 x.2) stack.

(** ** Deciding well-formedness on a concrete heap *)

Definition all_entries (h : heap) (P : loc -> string -> val -> bool) : bool :=
  forallb (fun lt => forallb (fun kv => P lt.1 kv.1 kv.2) (map_to_list lt.2)) (map_to_list h).

Definition acyclicb (h : heap) (rank : loc -> nat) : bool :=
  all_entries h (fun l _ v => match v with
                              | VMap (Some l') => Nat.ltb (rank l') (rank l)
                              | _ => true
                              end).

Definition closedb (h : heap) : bool :=
  all_entries h (fun _ _ v => match v with
                              | VMap (Some l') => bool_decide (l' ∈ dom h)
                              | _ => true
                              end).

Definition no_configb (h : heap) : bool :=
  all_entries h (fun _ _ v => match v with VConfig _ => false | _ => true end).

(** ** Sample heaps *)

(** The tree [{a: 3, m: {k: true}}]: table 1 is the root, table 2 is [m]. *)
Definition sample_heap : heap :=
  {[ 1%positive := {[ "a" := VInt 3; "m" := VMap (Some 2%positive) ]};
     2%positive := {[ "k" := VBool true ]} ]}.

(** [{x: {y: "[REQUIRED]", z: [ "[REQUIRED]" ]}, n: 1, r: "[REQUIRED]"}] *)
Definition required_heap : heap :=
  {[ 1%positive := {[ "x" := VMap (Some 2%positive); "n" := VInt 1; "r" := VString REQUIRED ]};
     2%positive := {[ "y" := VString REQUIRED; "z" := VSlice [VString REQUIRED] ]} ]}.

Definition required_rank (l : loc) : nat := if decide (l = 1%positive) then 1 else 0.

(** A map that holds itself under [a]. *)
Definition cyclic_heap : heap := {[ 1%positive := {[ "a" := VMap (Some 1%positive) ]} ]}.

(** [{a: Config{b: 1}}]: the value under [a] has the named type [Config]
    (as after [c.Set(NewConfig(), "a")]); table 2 is that Config. *)
Definition config_heap : heap :=
  {[ 1%positive := {[ "a" := VConfig (Some 2%positive) ]};
     2%positive := {[ "b" := VInt 1 ]} ]}.

(** ** The rest of the package *)

(** [NewConfig()]: [Config{}], a freshly allocated empty table. *)
Definition NewConfig (h : heap) : heap * mref :=
  let '(h', l) := new_map h in (h', Some l).

(** [strings.Split(s, ".")]: the pieces of [s] between its dots, so that
    [n] dots give [n + 1] pieces; [""] splits into [[""]]. *)
Fixpoint split_dot (s : string) : list string :=
  match s with
  | EmptyString => [""]
  | String c s' =>
      if Ascii.eqb c "." then "" :: split_dot s'
      else match split_dot s' with
           | r :: rs => String c r :: rs
           | [] => [String c ""]
           end
  end.

(** [SetPath(value, path)]: [c.Set(value, strings.Split(path, ".")...)]. *)
Definition SetPath (h : heap) (c : mref) (value : val) (path : string) : option heap :=
  Set_ h c value (split_dot path).


(** A key with no ['.'] in it. *)
Fixpoint no_dot (s : string) : bool :=
  match s with
  | EmptyString => true
  | String c s' => negb (Ascii.eqb c ".") && no_dot s'
  end.




(** ** Lemmas on the map primitives *)

Lemma new_map_fresh h : (new_map h).2 ∉ dom h.
Proof. unfold new_map. simpl. apply is_fresh. Qed.

Lemma mread_alloc h l r k :
  l ∉ dom h -> mread (<[l := ∅]> h) r k = mread h r k.
Proof.
  intros Hl. unfold mread, table_of. destruct r as [l'|]; [|done].
  destruct (decide (l = l')) as [->|Hne].
  - rewrite lookup_insert_eq. apply not_elem_of_dom in Hl. rewrite Hl.
    simpl. by rewrite !lookup_empty.
  - by rewrite lookup_insert_ne.
Qed.

Lemma mread_write_same h r k v h' :
  mwrite h r k v = Some h' -> mread h' r k = v.
Proof.
  destruct r as [l|]; simpl; [|discriminate]. intros [= <-].
  unfold mread, table_of. rewrite lookup_insert_eq. simpl. by rewrite lookup_insert_eq.
Qed.

Lemma mread_write_other h r k v h' r' k' :
  mwrite h r k v = Some h' -> (r' <> r \/ k' <> k) -> mread h' r' k' = mread h r' k'.
Proof.
  destruct r as [l|]; simpl; [|discriminate]. intros [= <-] Hne.
  unfold mread, table_of. destruct r' as [l'|]; [|done].
  destruct (decide (l = l')) as [->|Hl].
  - rewrite lookup_insert_eq. simpl. rewrite lookup_insert_ne; [done|].
    intros ->. destruct Hne; congruence.
  - by rewrite lookup_insert_ne.
Qed.

Lemma mwrite_some h r k v h' :
  mwrite h r k v = Some h' -> exists l, r = Some l.
Proof. destruct r; simpl; [eauto|discriminate]. Qed.

(** ** The typed getters on an absent path *)

Lemma getters_not_found h c path :
  GetPath h c path = VNil ->
  (snd (snd (GetMap h c path)) = Some (NotFoundError path) /\
   snd (GetString h c path) = Some (NotFoundError path) /\
   snd (GetBool h c path) = Some (NotFoundError path) /\
   snd (GetInt h c path) = Some (NotFoundError path) /\
   snd (GetFloat h c path) = Some (NotFoundError path) /\
   snd (GetSlice h c path) = Some (NotFoundError path) /\
   snd (GetStringSlice h c path) = Some (NotFoundError path)).
Proof.
  intros H. unfold GetMap, GetString, GetBool, GetInt, GetFloat, GetSlice, GetStringSlice.
  rewrite H. destruct (new_map h). repeat split.
Qed.

(** ** The loop of GetStringSlice *)

Lemma string_elems_spec xs acc r :
  string_elems xs acc = Some r <-> exists ss, xs = map VString ss /\ r = acc ++ ss.
Proof.
  revert acc. induction xs as [|x xs IH]; intros acc; simpl.
  - split.
    + intros [= <-]. exists []. by rewrite app_nil_r.
    + intros [[|s ss] [Hx ->]]; [by rewrite app_nil_r|discriminate].
  - destruct x; try (split; [discriminate|intros [[|s' ss] [Hx _]]; discriminate]).
    rewrite IH. split.
    + intros [ss [-> ->]]. exists (s :: ss). by rewrite <- app_assoc.
    + intros [[|s' ss] [Hx ->]]; [discriminate|]. injection Hx as -> ->.
      exists ss. by rewrite <- app_assoc.
Qed.

(** ** Claims on the typed getters *)

(** C5 (absence vs error): on a path where [GetPath] finds nothing (it is a
    total function: it never fails), every typed getter fails with exactly
    [NotFoundError{path}], never with a conversion error. *)
Theorem absent_path_not_found h c path :
  GetPath h c path = VNil ->
  snd (snd (GetMap h c path)) = Some (NotFoundError path) /\
  snd (GetString h c path) = Some (NotFoundError path) /\
  snd (GetBool h c path) = Some (NotFoundError path) /\
  snd (GetInt h c path) = Some (NotFoundError path) /\
  snd (GetFloat h c path) = Some (NotFoundError path) /\
  snd (GetSlice h c path) = Some (NotFoundError path) /\
  snd (GetStringSlice h c path) = Some (NotFoundError path).
Proof. apply getters_not_found. Qed.

Lemma absent_path_not_found_witness :
  GetPath {[ 1%positive := {[ "x" := VInt 1 ]} ]} (Some 1%positive) ["x"; "y"] = VNil /\
  snd (GetString {[ 1%positive := {[ "x" := VInt 1 ]} ]} (Some 1%positive) ["x"; "y"])
    = Some (NotFoundError ["x"; "y"]).
Proof.
  assert (H : GetPath {[ 1%positive := {[ "x" := VInt 1 ]} ]} (Some 1%positive) ["x"; "y"] = VNil)
    by reflexivity.
  split; [exact H|]. exact (proj1 (proj2 (absent_path_not_found _ _ _ H))).
Defined.

(** C6, as the code has it: a value of the wrong type makes every getter
    fail with the generic error of [errors.New], whose only content is the
    message "Error converting <path joined by "."> to <kind>"; the kind
    [GetStringSlice] names is "slice" for a value that is not a slice and
    "string slice" for a slice with an element that is not a string. *)
Theorem mismatch_generic_error h c path :
  GetPath h c path <> VNil ->
  (match GetPath h c path with
   | VMap _ => True
   | _ => snd (snd (GetMap h c path)) = Some (conversion_error path "map") end) /\
  (match GetPath h c path with
   | VString _ => True
   | _ => snd (GetString h c path) = Some (conversion_error path "string") end) /\
  (match GetPath h c path with
   | VBool _ => True
   | _ => snd (GetBool h c path) = Some (conversion_error path "bool") end) /\
  (match GetPath h c path with
   | VInt _ | VInt64 _ => True
   | _ => snd (GetInt h c path) = Some (conversion_error path "int") end) /\
  (match GetPath h c path with
   | VFloat _ | VInt _ | VInt64 _ => True
   | _ => snd (GetFloat h c path) = Some (conversion_error path "float") end) /\
  (match GetPath h c path with
   | VSlice _ => True
   | _ => snd (GetSlice h c path) = Some (conversion_error path "slice") /\
          snd (GetStringSlice h c path) = Some (conversion_error path "slice") end) /\
  (match GetPath h c path with
   | VSlice xs => (forall ss, xs <> map VString ss) ->
       snd (GetStringSlice h c path) = Some (conversion_error path "string slice")
   | _ => True end).
Proof.
  intros Hn.
  unfold GetMap, GetString, GetBool, GetInt, GetFloat, GetSlice, GetStringSlice.
  destruct (GetPath h c path) eqn:E; try congruence;
    destruct (new_map h); repeat split; try done.
  intros Hne. destruct (string_elems xs []) eqn:Es; [|done].
  apply string_elems_spec in Es as [ss [-> _]]. by destruct (Hne ss).
Qed.

Lemma mismatch_generic_error_witness :
  snd (GetInt {[ 1%positive := {[ "n" := VString "8080" ]} ]} (Some 1%positive) ["n"])
    = Some (ErrorString "Error converting n to int").
Proof.
  refine (proj1 (proj2 (proj2 (proj2
    (mismatch_generic_error {[ 1%positive := {[ "n" := VString "8080" ]} ]} (Some 1%positive) ["n"] _))))).
  vm_compute. discriminate.
Defined.

(** C6 fails as stated: the error of a failed conversion is no structured
    value carrying the path and the kind.  Two different paths, ["a.b"]
    and ["a"; "b"], give the very same error value, and a [GetStringSlice]
    on a number gives the same error value as a [GetSlice] there. *)
Lemma conversion_error_unstructured :
  let h1 : heap := {[ 1%positive := {[ "a.b" := VFloat 1.5%float ]} ]} in
  let h2 : heap := {[ 1%positive := {[ "a" := VMap (Some 2%positive) ]};
                      2%positive := {[ "b" := VFloat 1.5%float ]} ]} in
  snd (GetInt h1 (Some 1%positive) ["a.b"]) = Some (ErrorString "Error converting a.b to int") /\
  snd (GetInt h1 (Some 1%positive) ["a.b"]) = snd (GetInt h2 (Some 1%positive) ["a"; "b"]) /\
  snd (GetStringSlice h1 (Some 1%positive) ["a.b"]) = snd (GetSlice h1 (Some 1%positive) ["a.b"]).
Proof. vm_compute. repeat split. Qed.

(** C7 (numeric coercion): [GetInt] succeeds exactly on a stored [int] or
    [int64], returning its value as an [int64], and fails on a stored
    [float64]; [GetFloat] succeeds exactly on a stored [float64], [int] or
    [int64], returning the [float64] (the widened integer for an integer);
    neither succeeds on a stored string. *)
Theorem numeric_coercion h c path :
  (snd (GetInt h c path) = None <->
     exists z, GetPath h c path = VInt z \/ GetPath h c path = VInt64 z) /\
  (forall z, GetPath h c path = VInt z \/ GetPath h c path = VInt64 z ->
     GetInt h c path = (z, None)) /\
  (forall f, GetPath h c path = VFloat f ->
     snd (GetInt h c path) = Some (conversion_error path "int")) /\
  (snd (GetFloat h c path) = None <->
     (exists f, GetPath h c path = VFloat f) \/
     (exists z, GetPath h c path = VInt z \/ GetPath h c path = VInt64 z)) /\
  (forall f, GetPath h c path = VFloat f -> GetFloat h c path = (f, None)) /\
  (forall z, GetPath h c path = VInt z \/ GetPath h c path = VInt64 z ->
     GetFloat h c path = (float64_of_int64 z, None)) /\
  (forall s, GetPath h c path = VString s ->
     snd (GetInt h c path) <> None /\ snd (GetFloat h c path) <> None).
Proof.
  unfold GetInt, GetFloat.
  destruct (GetPath h c path) eqn:E; simpl;
    repeat split; intros; repeat match goal with
      | H : exists _, _ |- _ => destruct H
      | H : _ \/ _ |- _ => destruct H
      end; try congruence; eauto.
Qed.

(** C8 (all or nothing): on a stored [[]interface{}], [GetStringSlice]
    succeeds, with the elements as strings, when every element is a string,
    and otherwise fails with a conversion error and an empty result. *)
Theorem string_slice_all_or_nothing h c path xs :
  GetPath h c path = VSlice xs ->
  (forall ss, xs = map VString ss -> GetStringSlice h c path = (ss, None)) /\
  ((forall ss, xs <> map VString ss) ->
     GetStringSlice h c path = ([], Some (conversion_error path "string slice"))).
Proof.
  intros E. unfold GetStringSlice. rewrite E. split.
  - intros ss ->. assert (Hs : string_elems (map VString ss) [] = Some ss).
    { apply string_elems_spec. eauto. }
    by rewrite Hs.
  - intros Hne. destruct (string_elems xs []) eqn:Es; [|done].
    apply string_elems_spec in Es as [ss [-> _]]. by destruct (Hne ss).
Qed.

Lemma string_slice_all_or_nothing_witness :
  GetStringSlice {[ 1%positive := {[ "l" := VSlice [VString "a"; VString "b"; VInt 3] ]} ]}
    (Some 1%positive) ["l"]
  = ([], Some (ErrorString "Error converting l to string slice")).
Proof.
  refine (proj2 (string_slice_all_or_nothing
    {[ 1%positive := {[ "l" := VSlice [VString "a"; VString "b"; VInt 3] ]} ]}
    (Some 1%positive) ["l"] [VString "a"; VString "b"; VInt 3] eq_refl) _).
  intros [|s1 [|s2 [|s3 ss]]]; simpl; congruence.
Defined.

(** ** Claims on the empty path *)

(** C9: [GetPath] on the empty path returns nil, and [Set] on the empty
    path is the assignment [c[""] = value] at the root; on a (non-nil)
    Config it leaves the key [""] holding the value. *)
Theorem empty_path_behaviour h c v l :
  GetPath h c [] = VNil /\
  Set_ h c v [] = mwrite h c "" v /\
  match Set_ h (Some l) v [] with
  | Some h' => mread h' (Some l) "" = v /\ "" ∈ dom (table_of h' (Some l))
  | None => False
  end.
Proof.
  split; [done|]. split; [done|]. simpl.
  unfold mread, table_of. rewrite lookup_insert_eq. simpl. split.
  - by rewrite lookup_insert_eq.
  - apply elem_of_dom. rewrite lookup_insert_eq. done.
Qed.

(** ** Lemmas on the Set walk *)

Lemma get_loop_cons h ptr p rest :
  rest <> [] ->
  get_loop h ptr (p :: rest) =
  match mread h ptr p with VMap node => get_loop h node rest | _ => VNil end.
Proof. destruct rest; [done|reflexivity]. Qed.

Lemma set_loop_cons h ptr key p rest :
  rest <> [] ->
  set_loop h ptr key (p :: rest) =
  match set_step h ptr p with
  | Some (h', ptr') => set_loop h' ptr' p rest
  | None => None
  end.
Proof. destruct rest; [done|reflexivity]. Qed.

(** A middle step writes only to a slot that does not hold a map. *)
Lemma set_step_keeps_maps h ptr p h' ptr' r k m :
  set_step h ptr p = Some (h', ptr') ->
  descends (mread h r k) = Some m -> mread h' r k = mread h r k.
Proof.
  unfold set_step. intros Hs Hd.
  destruct (mread h ptr p) eqn:Ep;
    try (injection Hs as <- <-; reflexivity);
    destruct (new_map h) as [h1 l] eqn:En;
    destruct (mwrite h1 ptr p _) as [h2|] eqn:Ew; try discriminate;
    injection Hs as <- <-;
    (rewrite (mread_write_other _ _ _ _ _ _ _ Ew);
     [unfold new_map in En; injection En as <- <-; apply mread_alloc, is_fresh|]);
    (destruct (decide (r = ptr)) as [->|]; [|by left]);
    (destruct (decide (k = p)) as [->|]; [|by right]);
    rewrite Ep in Hd; discriminate.
Qed.

(** The whole loop writes only to slots that do not hold a map. *)
Lemma set_loop_keeps_maps path h ptr key h1 ptrF keyF r k m :
  set_loop h ptr key path = Some (h1, ptrF, keyF) ->
  descends (mread h r k) = Some m -> mread h1 r k = mread h r k.
Proof.
  revert h ptr key. induction path as [|p rest IH]; intros h ptr key Hs Hd.
  - simpl in Hs. congruence.
  - destruct rest as [|p' rest'].
    + simpl in Hs. congruence.
    + rewrite set_loop_cons in Hs by done.
      destruct (set_step h ptr p) as [[h' ptr']|] eqn:Est; [|discriminate].
      pose proof (set_step_keeps_maps _ _ _ _ _ _ _ _ Est Hd) as Hk.
      rewrite <- Hk. eapply IH; [exact Hs|]. by rewrite Hk.
Qed.

(** After the loop of [Set] on [q ++ [k]], the key is [k] and the slots
    along [q] lead, as [Set] descends, to the map [ptr] ends on. *)
Lemma set_loop_trail q k h ptr key h1 ptrF keyF :
  set_loop h ptr key (q ++ [k]) = Some (h1, ptrF, keyF) ->
  keyF = k /\ descend_path h1 ptr q = Some ptrF.
Proof.
  revert h ptr key. induction q as [|p q IH]; intros h ptr key Hs.
  - simpl in Hs. injection Hs as <- <- <-. done.
  - simpl app in Hs. rewrite set_loop_cons in Hs by (destruct q; discriminate).
    destruct (set_step h ptr p) as [[h2 ptr2]|] eqn:Est; [|discriminate].
    destruct (IH _ _ _ Hs) as [-> Hd]. split; [done|]. simpl.
    assert (Hm : descends (mread h2 ptr p) = Some ptr2).
    { unfold set_step in Est. destruct (mread h ptr p) eqn:Ep;
        try (injection Est as <- <-; by rewrite Ep);
        destruct (new_map h) as [h0 l];
        destruct (mwrite h0 ptr p _) as [h3|] eqn:Ew; try discriminate;
        injection Est as <- <-; by rewrite (mread_write_same _ _ _ _ _ Ew). }
    by rewrite (set_loop_keeps_maps _ _ _ _ _ _ _ _ _ _ Hs Hm), Hm.
Qed.

(** After the final write of nil, [GetPath] along the trail finds nil:
    either it reaches the written slot, or it stops earlier. *)
Lemma get_after_nil_write q k h1 ptr lF h' :
  descend_path h1 ptr q = Some (Some lF) ->
  mwrite h1 (Some lF) k VNil = Some h' ->
  get_loop h' ptr (q ++ [k]) = VNil.
Proof.
  revert ptr. induction q as [|p q IH]; intros ptr Hd Hw.
  - simpl in Hd. injection Hd as ->. simpl. exact (mread_write_same _ _ _ _ _ Hw).
  - simpl app. rewrite get_loop_cons by (destruct q; discriminate).
    simpl in Hd.
    destruct (decide (ptr = Some lF /\ p = k)) as [[-> ->]|Hne].
    + by rewrite (mread_write_same _ _ _ _ _ Hw).
    + rewrite (mread_write_other _ _ _ _ _ _ _ Hw)
        by (destruct (decide (ptr = Some lF)); [right; naive_solver|by left]).
      destruct (mread h1 ptr p); simpl in Hd; try discriminate; [by apply IH|done].
Qed.

(** ** Claim on nil values *)

(** C10: a present key holding nil is indistinguishable from an absent
    one: after [Set(nil, p)] completes, the key exists in the tree holding
    nil, [GetPath(p)] returns nil and every typed getter fails with
    [NotFoundError{p}]. *)
Theorem set_nil_reads_absent h c p h' :
  Set_ h c VNil p = Some h' ->
  (exists l t, h' !! l = Some t /\ t !! default "" (last p) = Some VNil) /\
  GetPath h' c p = VNil /\
  snd (snd (GetMap h' c p)) = Some (NotFoundError p) /\
  snd (GetString h' c p) = Some (NotFoundError p) /\
  snd (GetBool h' c p) = Some (NotFoundError p) /\
  snd (GetInt h' c p) = Some (NotFoundError p) /\
  snd (GetFloat h' c p) = Some (NotFoundError p) /\
  snd (GetSlice h' c p) = Some (NotFoundError p) /\
  snd (GetStringSlice h' c p) = Some (NotFoundError p).
Proof.
  intros Hs.
  assert (Hg : GetPath h' c p = VNil /\
    exists l t, h' !! l = Some t /\ t !! default "" (last p) = Some VNil).
  { unfold Set_ in Hs. destruct p as [|k q _] using rev_ind.
    - simpl in Hs. destruct c as [l|]; [|discriminate]. injection Hs as <-.
      split; [done|]. exists l, (<["" := VNil]> (table_of h (Some l))).
      by rewrite !lookup_insert_eq.
    - destruct (set_loop h c "" (q ++ [k])) as [[[h1 ptrF] keyF]|] eqn:El;
        [|discriminate].
      destruct (set_loop_trail _ _ _ _ _ _ _ _ El) as [-> Hd].
      destruct (mwrite_some _ _ _ _ _ Hs) as [lF ->].
      split; [exact (get_after_nil_write _ _ _ _ _ _ Hd Hs)|].
      rewrite last_snoc. simpl in Hs. injection Hs as <-.
      exists lF, (<[k := VNil]> (table_of h1 (Some lF))).
      by rewrite !lookup_insert_eq. }
  destruct Hg as [Hg Hk]. split; [exact Hk|]. split; [exact Hg|].
  exact (getters_not_found _ _ _ Hg).
Qed.

Lemma set_nil_reads_absent_witness :
  match Set_ {[ 1%positive := {[ "a" := VInt 1 ]} ]} (Some 1%positive) VNil ["a"; "b"] with
  | Some h' => GetPath h' (Some 1%positive) ["a"; "b"] = VNil
  | None => False
  end.
Proof.
  destruct (Set_ {[ 1%positive := {[ "a" := VInt 1 ]} ]} (Some 1%positive) VNil ["a"; "b"])
    as [h'|] eqn:E.
  - exact (proj1 (proj2 (set_nil_reads_absent _ _ _ _ E))).
  - vm_compute in E. discriminate.
Defined.

(** ** Write then read *)

(** Walking through a nil map, [Set] panics. *)
Lemma set_through_nil_panics rest h key h1 ptrF keyF v :
  rest <> [] ->
  set_loop h None key rest = Some (h1, ptrF, keyF) -> mwrite h1 ptrF keyF v = None.
Proof.
  intros Hne. destruct rest as [|p [|p' rest']]; [done| |].
  - simpl. intros [= <- <- <-]. reflexivity.
  - rewrite set_loop_cons by done. unfold set_step, mread, table_of.
    rewrite lookup_empty. simpl. destruct (new_map h). simpl. discriminate.
Qed.

(** The default case of a middle step, on an allocated table. *)
Lemma set_step_vivify h l p h2 ptr2 :
  l ∈ dom h -> descends (mread h (Some l) p) = None ->
  set_step h (Some l) p = Some (h2, ptr2) ->
  ptr2 = Some (fresh (dom h)) /\
  h2 = <[l := <[p := VMap (Some (fresh (dom h)))]> (table_of h (Some l))]>
         (<[fresh (dom h) := ∅]> h).
Proof.
  intros Hl Hd. unfold set_step.
  assert (Hne : l <> fresh (dom h)) by (intros ->; by apply (is_fresh (dom h))).
  destruct (mread h (Some l) p); simpl in Hd; try discriminate;
    intros [= <- <-]; split; try done;
    unfold table_of; by rewrite lookup_insert_ne.
Qed.

(** Vivifying a slot keeps the heap well formed: the new table gets the
    lowest rank, every other table moves one up. *)
Lemma vivify_wf h rank l p lf :
  acyclic h rank -> closed h -> no_config h -> l ∈ dom h -> lf ∉ dom h ->
  let h2 := <[l := <[p := VMap (Some lf)]> (table_of h (Some l))]> (<[lf := ∅]> h) in
  acyclic h2 (fun y => if decide (y = lf) then 0 else S (rank y)) /\
  closed h2 /\ no_config h2 /\ lf ∈ dom h2 /\ l ∈ dom h2.
Proof.
  intros Hac Hcl Hnc Hl Hlf h2.
  assert (Hne : l <> lf) by (intros ->; contradiction).
  apply elem_of_dom in Hl as [t0 Ht0].
  assert (Hd2 : forall y, y ∈ dom h -> y ∈ dom h2).
  { intros y Hy. unfold h2. rewrite !dom_insert_L. set_solver. }
  assert (Hlook : forall y t, h2 !! y = Some t ->
            (y = l /\ t = <[p := VMap (Some lf)]> t0) \/
            (y = lf /\ y <> l /\ t = ∅) \/ (y <> l /\ y <> lf /\ h !! y = Some t)).
  { intros y t Hy. unfold h2 in Hy. rewrite lookup_insert in Hy.
    destruct (decide (l = y)) as [<-|Hly].
    - left. injection Hy as <-. unfold table_of. by rewrite Ht0.
    - rewrite lookup_insert in Hy. destruct (decide (lf = y)) as [<-|Hfy].
      + right; left. injection Hy as <-. done.
      + right; right. done. }
  assert (Hnotf : forall y, y ∈ dom h -> y <> lf) by (intros y Hy ->; contradiction).
  split; [|split; [|split; [|split]]].
  - intros y t k l' Hy Hk.
    destruct (Hlook _ _ Hy) as [[-> ->]|[[-> [_ ->]]|[Hyl [Hyf Hh]]]].
    + rewrite lookup_insert in Hk. destruct (decide (p = k)) as [<-|].
      * injection Hk as ->. repeat case_decide; try congruence. lia.
      * pose proof (Hac _ _ _ _ Ht0 Hk). pose proof (Hnotf _ (Hcl _ _ _ _ Ht0 Hk)).
        repeat case_decide; try congruence. lia.
    + by rewrite lookup_empty in Hk.
    + pose proof (Hac _ _ _ _ Hh Hk). pose proof (Hnotf _ (Hcl _ _ _ _ Hh Hk)).
      repeat case_decide; try congruence. lia.
  - intros y t k l' Hy Hk.
    destruct (Hlook _ _ Hy) as [[-> ->]|[[-> [_ ->]]|[Hyl [Hyf Hh]]]].
    + rewrite lookup_insert in Hk. destruct (decide (p = k)) as [<-|].
      * injection Hk as ->. unfold h2. rewrite !dom_insert_L. set_solver.
      * apply Hd2. exact (Hcl _ _ _ _ Ht0 Hk).
    + by rewrite lookup_empty in Hk.
    + apply Hd2. exact (Hcl _ _ _ _ Hh Hk).
  - intros y t k m Hy.
    destruct (Hlook _ _ Hy) as [[-> ->]|[[-> [_ ->]]|[Hyl [Hyf Hh]]]].
    + rewrite lookup_insert. destruct (decide (p = k)); [discriminate|].
      exact (Hnc _ _ _ _ Ht0).
    + by rewrite lookup_empty.
    + exact (Hnc _ _ _ _ Hh).
  - unfold h2. rewrite !dom_insert_L. set_solver.
  - unfold h2. rewrite !dom_insert_L. set_solver.
Qed.

(** The induction behind write-then-read: on a well-formed acyclic heap,
    [GetPath] after [Set] from the table [l] finds the value written, and
    every table of higher rank than [l] is left untouched. *)
Lemma set_then_get_gen p :
  p <> [] ->
  forall h rank l key v h1 ptrF keyF h',
  acyclic h rank -> closed h -> no_config h -> l ∈ dom h ->
  set_loop h (Some l) key p = Some (h1, ptrF, keyF) ->
  mwrite h1 ptrF keyF v = Some h' ->
  get_loop h' (Some l) p = v /\
  (forall l0, l0 ∈ dom h -> rank l < rank l0 -> h' !! l0 = h !! l0).
Proof.
  induction p as [|x rest IH]; [done|]. intros _.
  intros h rank l key v h1 ptrF keyF h' Hac Hcl Hnc Hl Hs Hw.
  destruct rest as [|y rest'].
  - simpl in Hs. injection Hs as <- <- <-. split.
    + exact (mread_write_same _ _ _ _ _ Hw).
    + intros l0 Hl0 Hr. simpl in Hw. injection Hw as <-.
      rewrite lookup_insert_ne; [done|]. intros ->. lia.
  - rewrite set_loop_cons in Hs by done.
    destruct (set_step h (Some l) x) as [[h2 ptr2]|] eqn:Est; [|discriminate].
    rewrite get_loop_cons by done.
    pose proof Hl as Hl'. apply elem_of_dom in Hl' as [t0 Ht0].
    destruct (descends (mread h (Some l) x)) as [m|] eqn:Ed.
    + (* the slot holds a map: descend into it *)
      assert (Hm : mread h (Some l) x = VMap m).
      { unfold mread, table_of in Ed |- *. rewrite Ht0 in Ed |- *. simpl in Ed |- *.
        destruct (t0 !! x) as [[]|] eqn:Ex; simpl in Ed; try discriminate.
        - injection Ed as ->. done.
        - exfalso. exact (Hnc _ _ _ _ Ht0 Ex). }
      unfold set_step in Est. rewrite Hm in Est. injection Est as <- <-.
      destruct m as [l1|];
        [|rewrite (set_through_nil_panics (y :: rest') _ _ _ _ _ _ ltac:(discriminate) Hs) in Hw; discriminate].
      assert (Hx : t0 !! x = Some (VMap (Some l1))).
      { unfold mread, table_of in Hm. rewrite Ht0 in Hm. simpl in Hm.
        destruct (t0 !! x); simpl in Hm; [by rewrite Hm|discriminate]. }
      pose proof (Hac _ _ _ _ Ht0 Hx) as Hr1.
      destruct (IH ltac:(done) _ _ _ _ _ _ _ _ _ Hac Hcl Hnc (Hcl _ _ _ _ Ht0 Hx) Hs Hw)
        as [Hget Hframe].
      assert (Hread : mread h' (Some l) x = mread h (Some l) x).
      { unfold mread, table_of. by rewrite (Hframe l (elem_of_dom_2 _ _ _ Ht0) Hr1). }
      rewrite Hread, Hm. split; [exact Hget|].
      intros l0 Hl0 Hr. apply Hframe; [done|lia].
    + (* any other value: a fresh map replaces it *)
      destruct (set_step_vivify _ _ _ _ _ Hl Ed Est) as [-> ->].
      pose proof (is_fresh (dom h)) as Hf.
      destruct (vivify_wf h rank l x (fresh (dom h)) Hac Hcl Hnc Hl Hf)
        as (Hac2 & Hcl2 & Hnc2 & Hf2 & Hl2).
      destruct (IH ltac:(done) _ _ _ _ _ _ _ _ _ Hac2 Hcl2 Hnc2 Hf2 Hs Hw) as [Hget Hframe].
      assert (Hnl : l <> fresh (dom h)) by (intros Heq; rewrite <- Heq in Hf; contradiction).
      assert (Hread : mread h' (Some l) x = VMap (Some (fresh (dom h)))).
      { unfold mread, table_of. rewrite (Hframe l Hl2); [|repeat case_decide; try congruence; lia].
        rewrite lookup_insert_eq. simpl. by rewrite lookup_insert_eq. }
      rewrite Hread. split; [exact Hget|].
      intros l0 Hl0 Hr.
      assert (Hn0 : l0 <> fresh (dom h)) by (intros Heq; rewrite Heq in Hl0; contradiction).
      rewrite Hframe.
      * rewrite lookup_insert_ne by (intros ->; lia). by rewrite lookup_insert_ne.
      * rewrite !dom_insert_L. set_solver.
      * repeat case_decide; try congruence; lia.
Qed.

(** C1, as the code has it: for a non-empty path [p] and any value [v], on
    a Config whose maps form no cycle, once [Set(v, p)] completes (it
    panics when it meets a nil map), [GetPath(p)] returns [v], also when [p]
    runs through a scalar (replaced by a fresh map) or through an existing
    map (descended into).  A nested value of the named type [Config] is
    left out. *)
Theorem set_then_get h rank l0 v p h' :
  acyclic h rank -> closed h -> no_config h -> l0 ∈ dom h -> p <> [] ->
  Set_ h (Some l0) v p = Some h' ->
  GetPath h' (Some l0) p = v.
Proof.
  intros Hac Hcl Hnc Hl Hp Hs. unfold Set_ in Hs.
  destruct (set_loop h (Some l0) "" p) as [[[h1 ptrF] keyF]|] eqn:El; [|discriminate].
  exact (proj1 (set_then_get_gen p Hp _ _ _ _ _ _ _ _ _ Hac Hcl Hnc Hl El Hs)).
Qed.

Lemma sample_heap_wf :
  acyclic sample_heap (fun l => if decide (l = 1%positive) then 1 else 0) /\
  closed sample_heap /\ no_config sample_heap.
Proof.
  assert (Hl : forall l t k v, sample_heap !! l = Some t -> t !! k = Some v ->
            (l = 1%positive /\ (v = VInt 3 \/ v = VMap (Some 2%positive))) \/
            (l = 2%positive /\ v = VBool true)).
  { intros l t k v Hl Hk. unfold sample_heap in Hl.
    rewrite lookup_insert in Hl. case_decide as E1.
    - subst l. injection Hl as <-. rewrite lookup_insert in Hk. case_decide.
      + injection Hk as <-. auto.
      + apply lookup_singleton_Some in Hk as [_ <-]. auto.
    - apply lookup_singleton_Some in Hl as [<- <-].
      apply lookup_singleton_Some in Hk as [_ <-]. auto. }
  split; [|split].
  - intros l t k l' Ht Hk. destruct (Hl _ _ _ _ Ht Hk) as [[-> [|]]|[-> ?]]; try congruence.
    match goal with H : VMap _ = VMap _ |- _ => injection H as -> end.
    repeat case_decide; try congruence; lia.
  - intros l t k l' Ht Hk. destruct (Hl _ _ _ _ Ht Hk) as [[-> [|]]|[-> ?]]; try congruence.
    match goal with H : VMap _ = VMap _ |- _ => injection H as -> end.
    unfold sample_heap. rewrite !dom_insert_L. set_solver.
  - intros l t k m Ht Hk. destruct (Hl _ _ _ _ Ht Hk) as [[-> [|]]|[-> ?]]; congruence.
Qed.

Lemma set_then_get_witness :
  match Set_ sample_heap (Some 1%positive) (VString "x") ["a"; "b"] with
  | Some h' => GetPath h' (Some 1%positive) ["a"; "b"] = VString "x"
  | None => False
  end.
Proof.
  destruct (Set_ sample_heap (Some 1%positive) (VString "x") ["a"; "b"]) as [h'|] eqn:E.
  - destruct sample_heap_wf as (Hac & Hcl & Hnc).
    refine (set_then_get _ _ _ _ _ _ Hac Hcl Hnc _ _ E).
    + vm_compute. set_solver.
    + discriminate.
  - vm_compute in E. discriminate.
Defined.

(** C1 fails as stated on the empty path: [Set(v)] with no segment assigns
    the key [""], and [GetPath()] returns nil. *)
Lemma set_then_get_empty_path :
  match Set_ sample_heap (Some 1%positive) (VInt 5) [] with
  | Some h' => GetPath h' (Some 1%positive) [] <> VInt 5
  | None => False
  end.
Proof. vm_compute. discriminate. Qed.


(** ** Validate *)

Lemma flat_map_ext_elem {A B} (f g : A -> list B) (l : list A) :
  (forall x, x ∈ l -> f x = g x) -> flat_map f l = flat_map g l.
Proof.
  induction l as [|x l IH]; intros H; simpl; [done|].
  rewrite (H x) by constructor. f_equal. apply IH. intros y Hy. apply H. by constructor.
Qed.

#[local] Instance required_of_perm : Proper (Permutation ==> Permutation) required_of.
Proof. intros l1 l2 Hl. unfold required_of. by rewrite Hl. Qed.

Section Reachable.
Variable h : heap.
Variable rank : loc -> nat.
Hypothesis Hac : acyclic h rank.

Lemma fuel_for_child l k n f :
  S (rank l) < S f -> table_of h (Some l) !! k = Some n -> fuel_for rank n f.
Proof.
  intros Hf Hk. unfold table_of in Hk.
  destruct (h !! l) as [t|] eqn:Ht; simpl in Hk; [|by rewrite lookup_empty in Hk].
  destruct n as [| | | | | |[l'|]| | |]; simpl; try lia.
  pose proof (Hac _ _ _ _ Ht Hk). lia.
Qed.

Lemma reachable_fuel f f' v p :
  fuel_for rank v f -> fuel_for rank v f' -> reachable f h v p = reachable f' h v p.
Proof.
  revert f' v p. induction f as [|f IH]; intros f' v p Hf Hf'.
  { destruct v as [| | | | | |[]| | |]; simpl in Hf; lia. }
  destruct f' as [|f'].
  { destruct v as [| | | | | |[]| | |]; simpl in Hf'; lia. }
  simpl. f_equal. destruct v as [| | | | | |[l|]| | |]; try done.
  apply flat_map_ext_elem. intros [k n] Hkn. apply elem_of_map_to_list in Hkn.
  simpl. apply IH; eapply fuel_for_child; eauto.
Qed.

Variable fuel : nat.
Hypothesis Hfuel : forall l, S (rank l) < fuel.

Lemma fuel_enough v : fuel_for rank v fuel.
Proof. destruct v as [| | | | | |[l|]| | |]; simpl; try apply Hfuel; specialize (Hfuel 1%positive); lia. Qed.

(** Expanding a map node on the work list. *)
Lemma reachable_map m path :
  reachable fuel h (VMap m) path =
  (VMap m, path) ::
  flat_map (fun kn => reachable fuel h kn.2 (path +:+ "." +:+ kn.1)) (map_to_list (table_of h m)).
Proof.
  assert (Hpos : exists f, fuel = S f)
    by (destruct fuel; [specialize (Hfuel 1%positive); lia|eauto]).
  destruct Hpos as [f Ef]. rewrite Ef at 1. simpl. f_equal.
  destruct m as [l|]; [|done].
  apply flat_map_ext_elem. intros [k n] Hkn. apply elem_of_map_to_list in Hkn. simpl.
  apply reachable_fuel; [eapply fuel_for_child; [|exact Hkn]; rewrite <- Ef; apply Hfuel|].
  apply fuel_enough.
Qed.

Lemma reachable_leaf v path :
  (forall m, v <> VMap m) -> reachable fuel h v path = [(v, path)].
Proof.
  intros Hv. assert (Hpos : exists f, fuel = S f)
    by (destruct fuel; [specialize (Hfuel 1%positive); lia|eauto]).
  destruct Hpos as [f ->]. simpl. destruct v; try done. by destruct (Hv m).
Qed.

Lemma work_push nodes path (kvs : list (string * val)) :
  work fuel h (nodes ++ map (fun '(k, n) => (n, path +:+ "." +:+ k)) kvs) =
  work fuel h nodes ++ flat_map (fun kn => reachable fuel h kn.2 (path +:+ "." +:+ kn.1)) kvs.
Proof.
  unfold work. rewrite flat_map_app. f_equal.
  induction kvs as [|[k n] kvs IH]; simpl; [done|]. by rewrite IH.
Qed.

(** Every run of the work list ends with the required errors of the
    nodes the stack reaches, in some order. *)
Lemma validate_run_perm stack errs out :
  validate_run h stack errs out -> out ≡ₚ errs ++ required_of (work fuel h stack).
Proof.
  induction 1 as [errs|nodes m path kvs errs out Hkvs _ IH
                 |nodes s path errs out _ IH|nodes v path errs out Hm Hs _ IH].
  - simpl. by rewrite app_nil_r.
  - rewrite IH, work_push. unfold work. rewrite flat_map_app. simpl.
    rewrite reachable_map, app_nil_r. simpl. rewrite Hkvs.
    unfold required_of. rewrite !flat_map_app. reflexivity.
  - rewrite IH. unfold work. rewrite flat_map_app. simpl.
    rewrite reachable_leaf by discriminate. unfold required_of.
    rewrite !flat_map_app. simpl. destruct (String.eqb s REQUIRED).
    + rewrite <- !app_assoc. simpl. apply Permutation_app_head.
      by rewrite Permutation_app_comm.
    + by rewrite !app_nil_r.
  - rewrite IH. unfold work. rewrite flat_map_app. simpl.
    rewrite reachable_leaf by done. unfold required_of.
    rewrite !flat_map_app. simpl.
    destruct v; try (by rewrite !app_nil_r). by destruct (Hs s).
Qed.

(** The work list always empties: each step removes one node of the
    reachable nodes of the stack. *)
Lemma work_snoc stack x : work fuel h (stack ++ [x]) = work fuel h stack ++ reachable fuel h x.1 x.2.
Proof. unfold work. rewrite flat_map_app. simpl. by rewrite app_nil_r. Qed.

Lemma validate_run_exists stack errs :
  exists out, validate_run h stack errs out.
Proof.
  remember (length (work fuel h stack)) as n eqn:En.
  revert stack errs En. induction n as [n IH] using lt_wf_ind.
  intros stack errs En.
  destruct stack as [|x stack'] using rev_ind.
  { eexists. constructor. }
  destruct x as [v path].
  rewrite work_snoc, length_app in En. simpl in En.
  destruct v as [| s | | | | | m | | |];
    try (destruct (IH (length (work fuel h stack')) ltac:(rewrite En, reachable_leaf by done; simpl; lia)
                     stack' errs eq_refl) as [out Hout];
         exists out; apply VR_other; [done|done|exact Hout]).
  - destruct (IH (length (work fuel h stack')) ltac:(rewrite En, reachable_leaf by done; simpl; lia)
                stack' (if String.eqb s REQUIRED then errs ++ [RequiredError path] else errs)
                eq_refl) as [out Hout].
    exists out. by apply VR_string.
  - set (kvs := map_to_list (table_of h m)).
    assert (Hlt : length (work fuel h (stack' ++ map (fun '(k, n) => (n, path +:+ "." +:+ k)) kvs)) < n)
      by (rewrite En, work_push, reachable_map, !length_app; simpl; unfold kvs; lia).
    destruct (IH _ Hlt _ errs eq_refl) as [out Hout].
    exists out. eapply VR_map; [reflexivity|exact Hout].
Qed.
End Reachable.

Lemma all_entries_spec h P l t k v :
  all_entries h P = true -> h !! l = Some t -> t !! k = Some v -> P l k v = true.
Proof.
  unfold all_entries. intros Hall Hl Hk.
  apply elem_of_map_to_list in Hl. apply elem_of_map_to_list in Hk.
  rewrite forallb_forall in Hall. apply list_elem_of_In in Hl.
  specialize (Hall _ Hl). simpl in Hall. rewrite forallb_forall in Hall.
  apply list_elem_of_In in Hk. exact (Hall _ Hk).
Qed.

Lemma acyclicb_sound h rank : acyclicb h rank = true -> acyclic h rank.
Proof.
  intros H l t k l' Hl Hk. pose proof (all_entries_spec _ _ _ _ _ _ H Hl Hk) as E.
  simpl in E. by apply Nat.ltb_lt.
Qed.

Lemma closedb_sound h : closedb h = true -> closed h.
Proof.
  intros H l t k l' Hl Hk. pose proof (all_entries_spec _ _ _ _ _ _ H Hl Hk) as E.
  simpl in E. by apply bool_decide_eq_true in E.
Qed.

Lemma no_configb_sound h : no_configb h = true -> no_config h.
Proof.
  intros H l t k m Hl Hk. pose proof (all_entries_spec _ _ _ _ _ _ H Hl Hk) as E.
  discriminate E.
Qed.

(** ** Claim on Validate *)

(** C4, as the code has it: on a Config whose maps form no cycle,
    [Validate] terminates, and every list of errors it can return (the
    order of [range] over a map is unspecified) holds, in some order,
    exactly one [RequiredError] per path from a root entry through maps to
    a string equal to [REQUIRED], with that path dotted; nothing else, so
    none when there is no such string, and none for an element of a slice,
    which [reachable] does not enter.  A nested value of the named type
    [Config] is left out. *)
Theorem validate_reports_required h rank fuel c :
  acyclic h rank -> no_config h -> (forall l, S (rank l) < fuel) ->
  (exists out, Validate h c out) /\
  (forall out, Validate h c out -> out ≡ₚ required_fields fuel h c).
Proof.
  intros Hac _ Hfuel. split.
  - destruct (validate_run_exists h rank Hac fuel Hfuel
                (map (fun '(p, v) => (v, p)) (map_to_list (table_of h c))) []) as [out Hout].
    exists out, (map_to_list (table_of h c)). split; [reflexivity|exact Hout].
  - intros out [kvs [Hp Hrun]].
    rewrite (validate_run_perm h rank Hac fuel Hfuel _ _ _ Hrun). simpl.
    unfold required_fields, work.
    assert (Hm : forall (l : list (string * val)),
      flat_map (fun x => reachable fuel h x.1 x.2) (map (fun '(p, v) => (v, p)) l)
      = flat_map (fun kv => reachable fuel h kv.2 kv.1) l).
    { induction l as [|[p v] l IH]; simpl; [done|]. by rewrite IH. }
    by rewrite Hm, Hp.
Qed.

Lemma validate_reports_required_witness :
  (exists out, Validate required_heap (Some 1%positive) out) /\
  (forall out, Validate required_heap (Some 1%positive) out ->
     out ≡ₚ [RequiredError "x.y"; RequiredError "r"]).
Proof.
  assert (Hac : acyclic required_heap required_rank) by (apply acyclicb_sound; reflexivity).
  assert (Hnc : no_config required_heap) by (apply no_configb_sound; reflexivity).
  assert (Hf : forall l, S (required_rank l) < 3)
    by (intros l; unfold required_rank; case_decide; lia).
  destruct (validate_reports_required required_heap required_rank 3 (Some 1%positive) Hac Hnc Hf)
    as [Hex Hall].
  split; [exact Hex|].
  intros out Hout. rewrite (Hall out Hout).
  vm_compute. apply perm_swap.
Defined.

(** C4 fails as stated on a map that holds itself: [Validate] never
    returns, since the map is pushed back each time it is popped. *)
Lemma validate_cycle_never_returns :
  ~ exists out, Validate cyclic_heap (Some 1%positive) out.
Proof.
  assert (Htab : map_to_list (table_of cyclic_heap (Some 1%positive))
                 = [("a", VMap (Some 1%positive))]) by reflexivity.
  assert (Hinv : forall stack errs out, validate_run cyclic_heap stack errs out ->
            (exists p, (VMap (Some 1%positive), p) ∈ stack) -> False).
  { induction 1 as [errs|nodes m path kvs errs out Hkvs _ IH
                   |nodes s path errs out _ IH|nodes v path errs out Hm Hs _ IH];
      intros [p Hp].
    - by apply elem_of_nil in Hp.
    - apply IH. apply elem_of_app in Hp as [Hp|Hp].
      + exists p. apply elem_of_app. by left.
      + apply list_elem_of_singleton in Hp. injection Hp as <- <-.
        rewrite Htab in Hkvs. symmetry in Hkvs. apply Permutation_length_1_inv in Hkvs as ->.
        exists (p +:+ "." +:+ "a"). apply elem_of_app. right. simpl. left.
    - apply IH. exists p. apply elem_of_app in Hp as [Hp|Hp]; [done|].
      apply list_elem_of_singleton in Hp. discriminate.
    - apply IH. exists p. apply elem_of_app in Hp as [Hp|Hp]; [done|].
      apply list_elem_of_singleton in Hp. injection Hp as <- _. by destruct (Hm (Some 1%positive)). }
  intros [out [kvs [Hkvs Hrun]]]. apply (Hinv _ _ _ Hrun).
  rewrite Htab in Hkvs. symmetry in Hkvs. apply Permutation_length_1_inv in Hkvs as ->.
  exists "a". simpl. left.
Qed.

(** ** A nested value of the named type Config *)

(** C2 does not hold: at the middle element "a", [Set] descends into the
    [Config] value (its [case Config]), while [GetPath] does not (it has
    only [case map[string]interface{}]) and returns nil, before and after
    [Set(2, "a", "b")] wrote 2 inside that Config. *)
Theorem set_get_walks_differ_on_config :
  option_map snd (set_step config_heap (Some 1%positive) "a") = Some (Some 2%positive) /\
  mread config_heap (Some 2%positive) "b" = VInt 1 /\
  GetPath config_heap (Some 1%positive) ["a"; "b"] = VNil /\
  match Set_ config_heap (Some 1%positive) (VInt 2) ["a"; "b"] with
  | Some h' => mread h' (Some 1%positive) "a" = VConfig (Some 2%positive) /\
               mread h' (Some 2%positive) "b" = VInt 2 /\
               GetPath h' (Some 1%positive) ["a"; "b"] = VNil
  | None => False
  end.
Proof. vm_compute. repeat split. Qed.

(** C3 does not hold on [{a: Config{}}]: [Set(1, "a", "b", "c")] and
    [Set(2, "a", "b", "d")] write inside the Config, and
    [GetPath("a", "b", "c")] then returns nil, not 1. *)
Theorem sibling_lost_under_config :
  let h : heap := {[ 1%positive := {[ "a" := VConfig (Some 2%positive) ]}; 2%positive := ∅ ]} in
  match Set_ h (Some 1%positive) (VInt 1) ["a"; "b"; "c"] with
  | Some h1 =>
      match Set_ h1 (Some 1%positive) (VInt 2) ["a"; "b"; "d"] with
      | Some h2 => GetPath h2 (Some 1%positive) ["a"; "b"; "c"] = VNil /\
                   (exists l, mread h2 (Some 2%positive) "b" = VMap (Some l) /\
                              mread h2 (Some l) "c" = VInt 1 /\
                              mread h2 (Some l) "d" = VInt 2)
      | None => False
      end
  | None => False
  end.
Proof. vm_compute. split; [reflexivity|]. eexists. repeat split. Qed.

(** ** Writes below a prefix of maps *)

Lemma set_loop_along_maps q k h ptr key ptrF :
  descend_path h ptr q = Some ptrF ->
  set_loop h ptr key (q ++ [k]) = Some (h, ptrF, k).
Proof.
  revert ptr key. induction q as [|p q IH]; intros ptr key Hd.
  - simpl in Hd. by injection Hd as ->.
  - simpl in Hd. simpl app. rewrite set_loop_cons by (destruct q; discriminate).
    destruct (mread h ptr p) eqn:Ep; simpl in Hd; try discriminate;
      unfold set_step; rewrite Ep; by apply IH.
Qed.

(** When the nodes along the prefix [q] are maps (of either map type),
    [Set(v, q ++ [k])] is the single write of [k] in the map [q] leads to:
    every other key of every map, the siblings of [k] among them, keeps
    its value. *)
Theorem set_below_map_prefix h c q k v l :
  descend_path h c q = Some (Some l) ->
  exists h', Set_ h c v (q ++ [k]) = Some h' /\
    mread h' (Some l) k = v /\
    (forall r k', r <> Some l \/ k' <> k -> mread h' r k' = mread h r k').
Proof.
  intros Hd. unfold Set_. rewrite (set_loop_along_maps _ _ _ _ _ _ Hd). simpl.
  eexists. split; [reflexivity|]. split.
  - by apply (mread_write_same h (Some l) k v).
  - intros r k' Hne. by apply (mread_write_other h (Some l) k v).
Qed.

Lemma set_below_map_prefix_witness :
  exists h', Set_ sample_heap (Some 1%positive) (VInt 7) (["m"] ++ ["j"]) = Some h' /\
    mread h' (Some 2%positive) "j" = VInt 7 /\
    mread h' (Some 2%positive) "k" = VBool true.
Proof.
  destruct (set_below_map_prefix sample_heap (Some 1%positive) ["m"] "j" (VInt 7) 2%positive
              eq_refl) as [h' [Hs [Hj Hk]]].
  exists h'. split; [exact Hs|]. split; [exact Hj|].
  rewrite Hk by (right; discriminate). reflexivity.
Defined.

(** ** SetPath and strings.Split *)

Lemma string_app_cons x (a b : string) : String x a +:+ b = String x (a +:+ b).
Proof. reflexivity. Qed.

Lemma string_app_nil (b : string) : "" +:+ b = b.
Proof. reflexivity. Qed.


Lemma split_dot_nonempty s : split_dot s <> [].
Proof.
  induction s as [|c s IH]; simpl; [discriminate|].
  destruct (Ascii.eqb c "."); [discriminate|]. destruct (split_dot s); discriminate.
Qed.

Lemma join_cons2 k k' ks : join (k :: k' :: ks) = k +:+ "." +:+ join (k' :: ks).
Proof. reflexivity. Qed.


Lemma join_split_dot s : join (split_dot s) = s.
Proof.
  induction s as [|c s IH]; [reflexivity|]. simpl.
  destruct (Ascii.eqb c ".") eqn:E.
  - apply Ascii.eqb_eq in E as ->.
    destruct (split_dot s) as [|r rs] eqn:Es; [by apply split_dot_nonempty in Es|].
    rewrite join_cons2, string_app_nil, string_app_cons, string_app_nil. by rewrite IH.
  - destruct (split_dot s) as [|r [|r' rs]] eqn:Es; [by apply split_dot_nonempty in Es| |].
    + change (join [r]) with r in IH. change (join [String c r]) with (String c r).
      by rewrite IH.
    + rewrite join_cons2 in IH |- *. rewrite string_app_cons. by rewrite IH.
Qed.

Lemma split_dot_single k : no_dot k = true -> split_dot k = [k].
Proof.
  induction k as [|c k IH]; [done|]. simpl. intros [Hc Hk]%andb_prop.
  apply negb_true_iff in Hc. rewrite Hc, IH by done. reflexivity.
Qed.

Lemma split_dot_app k s : no_dot k = true -> split_dot (k +:+ "." +:+ s) = k :: split_dot s.
Proof.
  induction k as [|c k IH]; intros Hd; [reflexivity|].
  simpl in Hd. apply andb_prop in Hd as [Hc Hk]. apply negb_true_iff in Hc.
  rewrite string_app_cons. cbn [split_dot]. rewrite Hc, IH by done. reflexivity.
Qed.

Lemma split_dot_join ks :
  ks <> [] -> Forall (fun k => no_dot k = true) ks -> split_dot (join ks) = ks.
Proof.
  induction ks as [|k [|k' ks] IH]; intros Hne Hd; [done| |].
  - apply Forall_cons in Hd as [Hk _]. by apply split_dot_single.
  - apply Forall_cons in Hd as [Hk Hd]. rewrite join_cons2, split_dot_app by done.
    by rewrite IH.
Qed.

(** The path [SetPath] hands to [Set] always has a last segment, even for
    the string [""] (the single segment [""]), and joining its segments
    with ['.'] gives back the string. *)
Theorem setpath_segments s :
  split_dot s <> [] /\ join (split_dot s) = s.
Proof. split; [apply split_dot_nonempty|apply join_split_dot]. Qed.

(** For keys with no ['.'] in them, [SetPath(v, "k1.k2...kn")] is
    [Set(v, "k1", "k2", ..., "kn")]. *)
Theorem setpath_is_set h c v ks :
  ks <> [] -> Forall (fun k => no_dot k = true) ks ->
  SetPath h c v (join ks) = Set_ h c v ks.
Proof. intros Hne Hd. unfold SetPath. by rewrite split_dot_join. Qed.

Lemma setpath_is_set_witness :
  SetPath sample_heap (Some 1%positive) (VInt 1) "x.y" =
  Set_ sample_heap (Some 1%positive) (VInt 1) ["x"; "y"].
Proof.
  apply (setpath_is_set sample_heap (Some 1%positive) (VInt 1) ["x"; "y"]);
    [discriminate|repeat constructor].
Defined.

(** Write-then-read through [SetPath]: on a Config whose maps form no
    cycle, once [SetPath(v, s)] completes, [GetPath] on the segments of
    [s] returns [v], for every string [s], [""] included. *)
Theorem setpath_then_get h rank l0 v s h' :
  acyclic h rank -> closed h -> no_config h -> l0 ∈ dom h ->
  SetPath h (Some l0) v s = Some h' ->
  GetPath h' (Some l0) (split_dot s) = v.
Proof.
  intros Hac Hcl Hnc Hl Hs. unfold SetPath, Set_ in Hs.
  destruct (set_loop h (Some l0) "" (split_dot s)) as [[[h1 ptrF] keyF]|] eqn:El;
    [|discriminate].
  exact (proj1 (set_then_get_gen (split_dot s) (split_dot_nonempty s)
                  _ _ _ _ _ _ _ _ _ Hac Hcl Hnc Hl El Hs)).
Qed.

Lemma setpath_then_get_witness :
  match SetPath sample_heap (Some 1%positive) (VInt 9) "" with
  | Some h' => GetPath h' (Some 1%positive) [""] = VInt 9
  | None => False
  end.
Proof.
  destruct (SetPath sample_heap (Some 1%positive) (VInt 9) "") as [h'|] eqn:E.
  - destruct sample_heap_wf as (Hac & Hcl & Hnc).
    exact (setpath_then_get _ _ 1%positive (VInt 9) "" h' Hac Hcl Hnc
             ltac:(vm_compute; set_solver) E).
  - vm_compute in E. discriminate.
Defined.

(** ** The paths Validate reports *)

Lemma get_loop_snoc h ptr ks k :
  ks <> [] ->
  get_loop h ptr (ks ++ [k]) =
  match get_loop h ptr ks with VMap m => mread h m k | _ => VNil end.
Proof.
  revert ptr. induction ks as [|p ks IH]; intros ptr Hne; [done|].
  destruct ks as [|p' ks'].
  - simpl. destruct (mread h ptr p); reflexivity.
  - change ((p :: p' :: ks') ++ [k]) with (p :: ((p' :: ks') ++ [k])).
    rewrite (get_loop_cons h ptr p ((p' :: ks') ++ [k])) by discriminate.
    rewrite (get_loop_cons h ptr p (p' :: ks')) by discriminate.
    destruct (mread h ptr p); try reflexivity. apply IH. discriminate.
Qed.






(** ** GetMap hands out the stored map itself *)

Lemma mread_map_rank h rank ptr p l' :
  acyclic h rank -> mread h ptr p = VMap (Some l') ->
  exists x, ptr = Some x /\ rank l' < rank x.
Proof.
  intros Hac. unfold mread, table_of. destruct ptr as [x|]; [|by rewrite lookup_empty].
  destruct (h !! x) as [t|] eqn:Ht; simpl; [|by rewrite lookup_empty].
  destruct (t !! p) as [w|] eqn:Hp; simpl; [|discriminate]. intros ->.
  exists x. split; [done|]. exact (Hac _ _ _ _ Ht Hp).
Qed.

(** A write into the map a walk ends at does not disturb the walk: the
    tables it reads all have a higher rank. *)
Lemma get_loop_write_below h rank ptr ks lm k v h' :
  acyclic h rank -> ks <> [] -> get_loop h ptr ks = VMap (Some lm) ->
  mwrite h (Some lm) k v = Some h' ->
  (exists x, ptr = Some x /\ rank lm < rank x) /\ get_loop h' ptr ks = VMap (Some lm).
Proof.
  intros Hac. revert ptr. induction ks as [|p ks IH]; intros ptr Hne Hg Hw; [done|].
  destruct ks as [|p' ks'].
  - simpl in Hg |- *. destruct (mread_map_rank _ _ _ _ _ Hac Hg) as [x [-> Hx]].
    split; [eauto|].
    rewrite (mread_write_other _ _ _ _ _ _ p Hw) by (left; intros [= ->]; lia). exact Hg.
  - rewrite get_loop_cons in Hg |- * by discriminate.
    destruct (mread h ptr p) as [| | | | | |node| | |] eqn:Ep; try discriminate.
    destruct (IH node ltac:(discriminate) Hg Hw) as [[y [-> Hy]] Hg'].
    destruct (mread_map_rank _ _ _ _ _ Hac Ep) as [x [-> Hx]].
    split; [exists x; split; [done|lia]|].
    rewrite (mread_write_other _ _ _ _ _ _ p Hw) by (left; intros [= ->]; lia).
    by rewrite Ep.
Qed.

(** [GetMap] returns the map stored in the Config, not a copy: on a
    Config whose maps form no cycle, after [m[k] = v] on the map [m] it
    returned without error, [GetPath(path)] still returns [m] and
    [GetPath(path..., k)] returns [v]. *)
Theorem getmap_returns_stored_map h rank c path m k v h' :
  acyclic h rank -> GetMap h c path = (h, (m, None)) -> mwrite h m k v = Some h' ->
  GetPath h' c path = VMap m /\ GetPath h' c (path ++ [k]) = v.
Proof.
  intros Hac Hgm Hw. unfold GetMap, new_map in Hgm.
  destruct (GetPath h c path) eqn:Eg; simpl in Hgm; try discriminate.
  injection Hgm as <-. destruct (mwrite_some _ _ _ _ _ Hw) as [lm ->].
  assert (Hne : path <> []) by (intros ->; discriminate).
  unfold GetPath in *.
  destruct (get_loop_write_below _ _ _ _ _ _ _ _ Hac Hne Eg Hw) as [_ Hg'].
  split; [done|]. rewrite get_loop_snoc, Hg' by done.
  exact (mread_write_same _ _ _ _ _ Hw).
Qed.

Lemma getmap_returns_stored_map_witness :
  match mwrite sample_heap (Some 2%positive) "j" (VInt 7) with
  | Some h' => GetPath h' (Some 1%positive) ["m"] = VMap (Some 2%positive) /\
               GetPath h' (Some 1%positive) (["m"] ++ ["j"]) = VInt 7
  | None => False
  end.
Proof.
  destruct (mwrite sample_heap (Some 2%positive) "j" (VInt 7)) as [h'|] eqn:W;
    [|discriminate].
  destruct sample_heap_wf as (Hac & _ & _).
  exact (getmap_returns_stored_map _ _ (Some 1%positive) ["m"] _ "j" (VInt 7) h' Hac
           ltac:(vm_compute; reflexivity) W).
Defined.

(** ** GetMap's error result is a map of its own *)

Lemma mread_closed h ptr p y :
  closed h -> mread h ptr p = VMap (Some y) -> y ∈ dom h.
Proof.
  intros Hcl. unfold mread, table_of. destruct ptr as [x|]; [|by rewrite lookup_empty].
  destruct (h !! x) as [t|] eqn:Ht; simpl; [|by rewrite lookup_empty].
  destruct (t !! p) as [w|] eqn:Hp; simpl; [|discriminate]. intros ->.
  exact (Hcl _ _ _ _ Ht Hp).
Qed.

(** A heap that agrees with [h] on every table of [h] gives every walk
    from an allocated (or nil) map the same result. *)
Lemma get_loop_frame h h2 ptr q :
  closed h -> (forall x, x ∈ dom h -> h2 !! x = h !! x) ->
  (forall x, ptr = Some x -> x ∈ dom h) ->
  get_loop h2 ptr q = get_loop h ptr q.
Proof.
  intros Hcl Hagree. revert ptr. induction q as [|p q IH]; intros ptr Hptr; [done|].
  assert (Hr : mread h2 ptr p = mread h ptr p).
  { unfold mread, table_of. destruct ptr as [x|]; [|done].
    by rewrite (Hagree x (Hptr x eq_refl)). }
  destruct q as [|p' q'].
  - exact Hr.
  - rewrite !get_loop_cons by discriminate. rewrite Hr.
    destruct (mread h ptr p) as [| | | | | |node| | |] eqn:Ep; try reflexivity.
    apply IH. intros y ->. exact (mread_closed _ _ _ _ Hcl Ep).
Qed.

(** On a missing path or a value that is not a map, [GetMap] returns a
    freshly allocated empty map: writing into it changes nothing the
    Config holds ([GetPath] returns the same on every path), provided every
    map of the Config is allocated. *)
Theorem getmap_error_map_detached h c path h1 l e k v h2 :
  closed h -> (forall l0, c = Some l0 -> l0 ∈ dom h) ->
  GetMap h c path = (h1, (Some l, Some e)) -> mwrite h1 (Some l) k v = Some h2 ->
  forall q, GetPath h2 c q = GetPath h c q.
Proof.
  intros Hcl Hc Hgm Hw q. unfold GetMap, new_map in Hgm.
  assert (Hf : fresh (dom h) ∉ dom h) by apply is_fresh.
  destruct (GetPath h c path) eqn:Eg; simpl in Hgm; try discriminate;
    injection Hgm as E1 E2 _; subst h1 l;
    (injection Hw as Hw; subst h2; unfold GetPath; apply get_loop_frame; [done| |done];
     intros x Hx; rewrite !lookup_insert_ne by (intros E; rewrite E in Hf; contradiction); done).
Qed.

Lemma getmap_error_map_detached_witness :
  match GetMap sample_heap (Some 1%positive) ["a"] with
  | (h1, (Some l, Some e)) =>
      match mwrite h1 (Some l) "z" (VInt 0) with
      | Some h2 => GetPath h2 (Some 1%positive) ["m"; "k"] =
                   GetPath sample_heap (Some 1%positive) ["m"; "k"]
      | None => False
      end
  | _ => False
  end.
Proof.
  destruct (GetMap sample_heap (Some 1%positive) ["a"]) as [h1 [[l|] [e|]]] eqn:E;
    try (vm_compute in E; discriminate).
  destruct (mwrite h1 (Some l) "z" (VInt 0)) as [h2|] eqn:W; [|discriminate].
  destruct sample_heap_wf as (_ & Hcl & _).
  exact (getmap_error_map_detached sample_heap (Some 1%positive) ["a"] h1 l e "z" (VInt 0) h2 Hcl
           ltac:(intros l0 [= El0]; subst l0; vm_compute; set_solver) E W ["m"; "k"]).
Defined.

(** ** NewConfig *)

(** A new Config is empty: [GetPath] returns nil on every path, and
    [Validate] returns, and returns no error. *)
Theorem new_config_is_empty h :
  let '(h', c) := NewConfig h in
  (forall p, GetPath h' c p = VNil) /\ Validate h' c [] /\
  (forall out, Validate h' c out -> out = []).
Proof.
  unfold NewConfig, new_map. simpl.
  set (l := fresh (dom h)).
  assert (Ht : table_of (<[l := ∅]> h) (Some l) = ∅).
  { simpl. by rewrite lookup_insert_eq. }
  assert (Hr : forall p, mread (<[l := ∅]> h) (Some l) p = VNil).
  { intros p. unfold mread. by rewrite Ht, lookup_empty. }
  split; [|split].
  - intros [|p [|p' q]]; [done|apply Hr|]. rewrite get_loop_cons by discriminate.
    by rewrite Hr.
  - exists []. rewrite Ht, map_to_list_empty. split; [done|]. apply VR_done.
  - intros out [kvs [Hkvs Hrun]]. rewrite Ht, map_to_list_empty in Hkvs.
    symmetry in Hkvs. apply Permutation_nil in Hkvs as ->. simpl in Hrun.
    inversion Hrun as [errs| nodes ? ? ? ? ? ? ? Hn| nodes ? ? ? ? ? Hn| nodes ? ? ? ? ? ? ? Hn];
      [done|..]; destruct nodes; discriminate Hn.
Qed.
